(** * config: the adapter registry and the construction entry points

    A shallow embedding of [config/config.go] (package [config] of beego).

    The package keeps one process-wide variable, [adapters], a map from
    adapter names to [Config] values, and three functions that touch it:
    [Register], [NewConfig] and [NewConfigData].  They are embedded here in
    a small state-and-panic monad over the package state; the methods of the
    two interfaces, [Config] and [Configer], are effects on the rest of the
    process (files, the memory of the parsed objects), called the world. *)

From Stdlib Require Import ZArith String PrimFloat.
From stdpp Require Import base option relations strings gmap.

Local Open Scope string_scope.

(** ** Go values *)

(** A Go [error] is nil or carries a message. *)
Definition error : Type := option string.

(** What a call does: it returns, or it panics with a value.  Every panic of
    this package carries a string. *)
Inductive Res (A : Type) : Type :=
| Returned (a : A)
| Panicked (v : string).
Arguments Returned {A} a.
Arguments Panicked {A} v.

(** The value of a method call on a nil interface. *)
Definition nil_dereference : string :=
  "runtime error: invalid memory address or nil pointer dereference".

(** [strconv.Quote], which the verb [%q] of [fmt.Errorf] applies to a string
    operand.  It belongs to the Go library, not to this package, and is
    taken as given. *)
Class strconv : Type := Quote : string → string.

Section Package.

(** The world outside the package, and Go's [interface{}]. *)
Context {W : Type} {any : Type} `{strconv}.

(** An interface method runs on the world. *)
Definition Eff (A : Type) : Type := W → Res A * W.

(** ** The two interfaces

    A value of a Go interface type is nil or an object with the methods of
    the interface: [option Configer] and [option Config] below. *)

Record Configer : Type := {
  Set_ : string → string → Eff error;
  String_ : string → Eff string;
  Strings : string → Eff (list string);
  Int : string → Eff (Z * error);
  Int64 : string → Eff (Z * error);
  Bool : string → Eff (bool * error);
  Float : string → Eff (float * error);
  DefaultString : string → string → Eff string;
  DefaultStrings : string → list string → Eff (list string);
  DefaultInt : string → Z → Eff Z;
  DefaultInt64 : string → Z → Eff Z;
  DefaultBool : string → bool → Eff bool;
  DefaultFloat : string → float → Eff float;
  DIY : string → Eff (any * error);
  GetSection : string → Eff (gmap string string * error);
  SaveConfigFile : string → Eff error
}.

Record Config : Type := {
  Parse : string → Eff (option Configer * error);
  ParseData : list Byte.byte → Eff (option Configer * error)
}.

(** ** The package state and its monad *)

Record State : Type := mkState {
  adapters : gmap string (option Config);
  world : W
}.

(** [var adapters = make(map[string]Config)] *)
Definition init (w : W) : State := mkState ∅ w.

Definition M (A : Type) : Type := State → Res A * State.

Definition ret {A} (a : A) : M A := λ s, (Returned a, s).

Definition bind {A B} (m : M A) (k : A → M B) : M B :=
  λ s, match m s with
       | (Returned a, s') => k a s'
       | (Panicked v, s') => (Panicked v, s')
       end.

(** [panic(v)]: the function stops there; what it wrote before stays. *)
Definition panic {A} (v : string) : M A := λ s, (Panicked v, s).

(** [if c { panic(v) }] *)
Definition panic_if (c : bool) (v : string) : M unit :=
  if c then panic v else ret tt.

(** [v, ok := adapters[name]]: the zero value, nil, when the key is absent. *)
Definition index (name : string) : M (option Config * bool) :=
  λ s, (Returned match adapters s !! name with
                 | Some a => (a, true)
                 | None => (None, false)
                 end, s).

(** [adapters[name] = adapter] *)
Definition assign (name : string) (adapter : option Config) : M unit :=
  λ s, (Returned tt, mkState (<[name := adapter]> (adapters s)) (world s)).

(** A method body runs on the world and leaves [adapters] alone: the
    variable is not exported, and [Register] alone assigns to it. *)
Definition run {A} (e : Eff A) : M A :=
  λ s, let '(r, w) := e (world s) in (r, mkState (adapters s) w).

(** [adapter.m(...)] on an interface value. *)
Definition invoke {A} (adapter : option Config) (m : Config → Eff A) : M A :=
  match adapter with
  | None => panic nil_dereference
  | Some a => run (m a)
  end.

#[export] Instance M_ret : MRet M := @ret.
#[export] Instance M_bind : MBind M := λ A B k m, bind m k.

(** ** The functions *)

Definition is_nil {A} (x : option A) : bool :=
  match x with None => true | Some _ => false end.

(** [fmt.Errorf("config: unknown adaptername %q (forgotten import?)", name)] *)
Definition unknown_adaptername (adapterName : string) : error :=
  Some ("config: unknown adaptername " +:+ Quote adapterName
        +:+ " (forgotten import?)").

Definition Register (name : string) (adapter : option Config) : M unit :=
  panic_if (is_nil adapter) "config: Register adapter is nil" ;;
  '(_, ok) ← index name;
  panic_if ok ("config: Register called twice for adapter " +:+ name) ;;
  assign name adapter.

Definition NewConfig (adapterName filename : string)
  : M (option Configer * error) :=
  '(adapter, ok) ← index adapterName;
  if negb ok then mret (None, unknown_adaptername adapterName)
  else invoke adapter (λ a, Parse a filename).

Definition NewConfigData (adapterName : string) (data : list Byte.byte)
  : M (option Configer * error) :=
  '(adapter, ok) ← index adapterName;
  if negb ok then mret (None, unknown_adaptername adapterName)
  else invoke adapter (λ a, ParseData a data).

(** ** The life of the process

    The package state changes by calls of the three functions, with any
    arguments and whether they return or panic (a caller may recover), and
    by whatever else the process does to the world: the methods of a
    [Configer], other code. *)

Inductive step : State → State → Prop :=
| step_Register name adapter s r s' :
    Register name adapter s = (r, s') → step s s'
| step_NewConfig adapterName filename s r s' :
    NewConfig adapterName filename s = (r, s') → step s s'
| step_NewConfigData adapterName data s r s' :
    NewConfigData adapterName data s = (r, s') → step s s'
| step_world s w :
    step s (mkState (adapters s) w).

Definition reachable (s : State) : Prop := ∃ w, rtc step (init w) s.

(** No entry of the registry is nil. *)
Definition no_nil_entry (s : State) : Prop :=
  ∀ name adapter, adapters s !! name = Some adapter → adapter ≠ None.

(** [message] contains [part]. *)
Definition mentions (message part : string) : Prop :=
  ∃ pre post, message = pre +:+ part +:+ post.

End Package.

Arguments Eff : clear implicits.
Arguments Configer : clear implicits.
Arguments Config : clear implicits.
Arguments State : clear implicits.
Arguments M : clear implicits.

(** ** A process to run the package in

    The world is the trace of the method calls made so far; one adapter
    records its calls and hands out a [Configer], the other fails to parse. *)

Module Fixture.

Definition trace : Type := list string.

Definition quote_mark : string := String (Ascii.ascii_of_nat 34) EmptyString.

(** [strconv.Quote] on letters and digits. *)
#[export] Instance quote_plain : strconv := λ s, quote_mark +:+ s +:+ quote_mark.

Definition logged {A} (line : string) (a : A) : Eff trace A :=
  λ w, (Returned a, line :: w).

Definition blank : Configer trace unit := {|
  Set_ := λ key val, logged ("Set " +:+ key) None;
  String_ := λ key, logged ("String " +:+ key) "";
  Strings := λ key, logged ("Strings " +:+ key) [];
  Int := λ key, logged ("Int " +:+ key) (0%Z, Some "not found");
  Int64 := λ key, logged ("Int64 " +:+ key) (0%Z, Some "not found");
  Bool := λ key, logged ("Bool " +:+ key) (false, Some "not found");
  Float := λ key, logged ("Float " +:+ key) (PrimFloat.zero, Some "not found");
  DefaultString := λ key d, logged ("DefaultString " +:+ key) d;
  DefaultStrings := λ key d, logged ("DefaultStrings " +:+ key) d;
  DefaultInt := λ key d, logged ("DefaultInt " +:+ key) d;
  DefaultInt64 := λ key d, logged ("DefaultInt64 " +:+ key) d;
  DefaultBool := λ key d, logged ("DefaultBool " +:+ key) d;
  DefaultFloat := λ key d, logged ("DefaultFloat " +:+ key) d;
  DIY := λ key, logged ("DIY " +:+ key) (tt, Some "not found");
  GetSection := λ section, logged ("GetSection " +:+ section) (∅, Some "not found");
  SaveConfigFile := λ filename, logged ("SaveConfigFile " +:+ filename) None
|}.

Definition recorder : Config trace unit := {|
  Parse := λ filename, logged ("Parse " +:+ filename) (Some blank, None);
  ParseData := λ data, logged "ParseData" (Some blank, None)
|}.

Definition broken : Config trace unit := {|
  Parse := λ filename, logged ("Parse " +:+ filename) (None, Some "syntax error");
  ParseData := λ data w, (Panicked "short buffer", "ParseData" :: w)
|}.

(** The process after [Register("ini", recorder)]. *)
Definition with_ini : State trace unit :=
  mkState {[ "ini" := Some recorder ]} [].

End Fixture.

(** * What the functions compute *)

Section Facts.

Context {W : Type} {any : Type} `{strconv}.

Implicit Types (s : State W any) (a : Config W any) (adapter : option (Config W any)).
Implicit Types (name adapterName filename v : string) (data : list Byte.byte).

(** The three functions, one case per path through the source. *)

Lemma Register_nil name s :
  Register name None s = (Panicked "config: Register adapter is nil", s).
Proof. reflexivity. Qed.

Lemma Register_twice name a s :
  is_Some (adapters s !! name) →
  Register name (Some a) s
  = (Panicked ("config: Register called twice for adapter " +:+ name), s).
Proof.
  intros [old Hold]. unfold Register, mbind, M_bind, bind; simpl.
  unfold index. rewrite Hold. reflexivity.
Qed.

Lemma Register_fresh name a s :
  adapters s !! name = None →
  Register name (Some a) s
  = (Returned tt, mkState (<[name := Some a]> (adapters s)) (world s)).
Proof.
  intros Hnone. unfold Register, mbind, M_bind, bind; simpl.
  unfold index. rewrite Hnone. reflexivity.
Qed.

Lemma NewConfig_unknown adapterName filename s :
  adapters s !! adapterName = None →
  NewConfig adapterName filename s
  = (Returned (None, unknown_adaptername adapterName), s).
Proof.
  intros Hnone. unfold NewConfig, mbind, M_bind, bind, index.
  rewrite Hnone. reflexivity.
Qed.

Lemma NewConfig_known adapterName filename adapter s :
  adapters s !! adapterName = Some adapter →
  NewConfig adapterName filename s = invoke adapter (λ a, Parse a filename) s.
Proof.
  intros Hsome. unfold NewConfig, mbind, M_bind, bind, index.
  rewrite Hsome. reflexivity.
Qed.

Lemma NewConfigData_unknown adapterName data s :
  adapters s !! adapterName = None →
  NewConfigData adapterName data s
  = (Returned (None, unknown_adaptername adapterName), s).
Proof.
  intros Hnone. unfold NewConfigData, mbind, M_bind, bind, index.
  rewrite Hnone. reflexivity.
Qed.

Lemma NewConfigData_known adapterName data adapter s :
  adapters s !! adapterName = Some adapter →
  NewConfigData adapterName data s = invoke adapter (λ a, ParseData a data) s.
Proof.
  intros Hsome. unfold NewConfigData, mbind, M_bind, bind, index.
  rewrite Hsome. reflexivity.
Qed.

(** A method call leaves [adapters] as it was. *)
Lemma run_adapters {A} (e : Eff W A) s r s' :
  run e s = (r, s') → adapters s' = adapters s ∧ e (world s) = (r, world s').
Proof.
  unfold run. destruct (e (world s)) as [r0 w]. intros [= <- <-]. done.
Qed.

Lemma invoke_adapters {A} adapter (m : Config W any → Eff W A) s r s' :
  invoke adapter m s = (r, s') → adapters s' = adapters s.
Proof.
  destruct adapter as [a|]; simpl.
  - intros Hrun. by apply run_adapters in Hrun as [? _].
  - by intros [= _ <-].
Qed.

(** When [Register] panics, and what it leaves behind. *)
Lemma Register_panicked name adapter s v s' :
  Register name adapter s = (Panicked v, s') →
  (adapter = None ∨ is_Some (adapters s !! name)) ∧ s' = s.
Proof.
  destruct adapter as [a|].
  - destruct (adapters s !! name) as [old|] eqn:Hlook.
    + rewrite Register_twice by eauto. intros [= _ <-]. eauto.
    + rewrite Register_fresh by done. discriminate.
  - rewrite Register_nil. intros [= _ <-]. eauto.
Qed.

Lemma Register_returned name adapter s u s' :
  Register name adapter s = (Returned u, s') →
  ∃ a, adapter = Some a ∧ adapters s !! name = None
       ∧ s' = mkState (<[name := Some a]> (adapters s)) (world s).
Proof.
  destruct adapter as [a|].
  - destruct (adapters s !! name) as [old|] eqn:Hlook.
    + rewrite Register_twice by eauto. discriminate.
    + rewrite Register_fresh by done. intros [= <-]. eauto.
  - rewrite Register_nil. discriminate.
Qed.

(** ** The registry along the life of the process *)

(** It only grows. *)
Lemma step_grows s s' : step s s' → adapters s ⊆ adapters s'.
Proof.
  destruct 1 as [name adapter s r s' Hcall|an fn s r s' Hcall
                |an data s r s' Hcall|s w]; simpl; [| | |done].
  - destruct r as [u|v].
    + apply Register_returned in Hcall as (a & _ & Hnone & ->); simpl.
      by apply insert_subseteq.
    + by apply Register_panicked in Hcall as [_ ->].
  - destruct (adapters s !! an) as [adapter|] eqn:Hlook.
    + rewrite (NewConfig_known _ _ _ _ Hlook) in Hcall.
      by rewrite (invoke_adapters _ _ _ _ _ Hcall).
    + rewrite NewConfig_unknown in Hcall by done. by injection Hcall as _ <-.
  - destruct (adapters s !! an) as [adapter|] eqn:Hlook.
    + rewrite (NewConfigData_known _ _ _ _ Hlook) in Hcall.
      by rewrite (invoke_adapters _ _ _ _ _ Hcall).
    + rewrite NewConfigData_unknown in Hcall by done. by injection Hcall as _ <-.
Qed.

Lemma steps_grow s s' : rtc step s s' → adapters s ⊆ adapters s'.
Proof.
  induction 1 as [s|s mid s' Hstep _ IH]; [done|].
  etrans; [by apply step_grows|done].
Qed.

(** No entry of it is ever nil. *)
Lemma step_no_nil s s' : step s s' → no_nil_entry s → no_nil_entry s'.
Proof.
  intros Hstep Hinv.
  destruct Hstep as [name adapter s r s' Hcall|an fn s r s' Hcall
                    |an data s r s' Hcall|s w]; [| | |done].
  - destruct r as [u|v].
    + apply Register_returned in Hcall as (a & -> & Hnone & ->).
      intros n ad; simpl. destruct (decide (name = n)) as [->|Hne].
      * rewrite lookup_insert_eq. by intros [= <-].
      * rewrite lookup_insert_ne by done. apply Hinv.
    + by apply Register_panicked in Hcall as [_ ->].
  - intros n ad Hn. apply (Hinv n).
    destruct (adapters s !! an) as [adapter|] eqn:Hlook.
    + rewrite (NewConfig_known _ _ _ _ Hlook) in Hcall.
      by rewrite <- (invoke_adapters _ _ _ _ _ Hcall).
    + rewrite NewConfig_unknown in Hcall by done. by injection Hcall as _ <-.
  - intros n ad Hn. apply (Hinv n).
    destruct (adapters s !! an) as [adapter|] eqn:Hlook.
    + rewrite (NewConfigData_known _ _ _ _ Hlook) in Hcall.
      by rewrite <- (invoke_adapters _ _ _ _ _ Hcall).
    + rewrite NewConfigData_unknown in Hcall by done. by injection Hcall as _ <-.
Qed.

Lemma steps_no_nil s s' : rtc step s s' → no_nil_entry s → no_nil_entry s'.
Proof.
  induction 1 as [s|s mid s' Hstep _ IH]; [done|].
  intros Hinv. apply IH. by apply (step_no_nil s).
Qed.

Lemma reachable_no_nil s : reachable s → no_nil_entry s.
Proof.
  intros [w Hsteps]. apply (steps_no_nil _ _ Hsteps).
  intros name adapter; simpl. by rewrite lookup_empty.
Qed.

End Facts.

(** * The properties of the registry and of the entry points *)

Section Claims.

Context {W : Type} {any : Type} `{strconv}.

Implicit Types (s : State W any) (a : Config W any) (adapter : option (Config W any)).
Implicit Types (name adapterName filename v : string) (data : list Byte.byte).

(** C1.  For a name that is not in the registry and an adapter that is not
    nil, [Register] returns without a panic; afterwards the lookup of the
    name, as [NewConfig] and [NewConfigData] do it, finds exactly that
    adapter, and both functions hand their argument to it. *)
Theorem Register_then_lookup name a s :
  adapters s !! name = None →
  ∃ s', Register name (Some a) s = (Returned tt, s')
      ∧ index name s' = (Returned (Some a, true), s')
      ∧ (∀ filename, NewConfig name filename s' = run (Parse a filename) s')
      ∧ (∀ data, NewConfigData name data s' = run (ParseData a data) s').
Proof.
  intros Hfresh. eexists. split; [by apply Register_fresh|].
  assert (Hlook : adapters (mkState (<[name := Some a]> (adapters s)) (world s))
                  !! name = Some (Some a)) by apply lookup_insert_eq.
  split; [|split].
  - unfold index. by rewrite Hlook.
  - intros filename. by rewrite (NewConfig_known _ _ _ _ Hlook).
  - intros data. by rewrite (NewConfigData_known _ _ _ _ Hlook).
Qed.

(** C2.  For a name that is not registered, [NewConfig] and [NewConfigData]
    return a nil [Configer] and an error that is not nil, for every path and
    every buffer; its message is the same for both and mentions the name, as
    [%q] prints it. *)
Theorem unknown_adapter_error adapterName s :
  adapters s !! adapterName = None →
  ∃ message,
    message = "config: unknown adaptername " +:+ Quote adapterName
              +:+ " (forgotten import?)"
    ∧ mentions message (Quote adapterName)
    ∧ (∀ filename,
         NewConfig adapterName filename s = (Returned (None, Some message), s))
    ∧ (∀ data,
         NewConfigData adapterName data s = (Returned (None, Some message), s)).
Proof.
  intros Hnone. eexists. split; [reflexivity|]. split; [|split].
  - by exists "config: unknown adaptername ", " (forgotten import?)".
  - intros filename. by apply NewConfig_unknown.
  - intros data. by apply NewConfigData_unknown.
Qed.

(** C3.  [Register] panics exactly when the adapter is nil or the name is
    already registered.  It has no result to report an error in: a call
    either returns nothing or panics. *)
Theorem Register_panics_iff name adapter s :
  ((∃ v s', Register name adapter s = (Panicked v, s'))
   ↔ (adapter = None ∨ is_Some (adapters s !! name)))
  ∧ (∀ r s', Register name adapter s = (r, s') →
             r = Returned tt ∨ ∃ v, r = Panicked v).
Proof.
  split; [split|].
  - intros (v & s' & Hcall). by apply Register_panicked in Hcall as [? _].
  - intros [->|Hold].
    + do 2 eexists; apply Register_nil.
    + destruct adapter as [a|].
      * do 2 eexists; by apply Register_twice.
      * do 2 eexists; apply Register_nil.
  - intros [[]|v] s' _; eauto.
Qed.

(** C4.  For a registered name, [NewConfig] returns what [Parse] of the
    registered adapter returns on the file name, and [NewConfigData] what
    its [ParseData] returns on the buffer, with the effect of that call on
    the world and nothing else.  The functions parse nothing themselves:
    whatever pair either of them returns is the adapter's own, unchanged,
    or the unknown-adapter error for a name that is not registered. *)
Theorem dispatch_returns_the_adapters_result adapterName s :
  (∀ a,
     adapters s !! adapterName = Some (Some a) →
     (∀ filename r w,
        Parse a filename (world s) = (r, w) →
        NewConfig adapterName filename s = (r, mkState (adapters s) w))
     ∧ (∀ data r w,
        ParseData a data (world s) = (r, w) →
        NewConfigData adapterName data s = (r, mkState (adapters s) w)))
  ∧ (∀ filename c e s',
       NewConfig adapterName filename s = (Returned (c, e), s') →
       (adapters s !! adapterName = None
        ∧ c = None ∧ e = unknown_adaptername adapterName ∧ s' = s)
       ∨ (∃ a w, adapters s !! adapterName = Some (Some a)
                 ∧ Parse a filename (world s) = (Returned (c, e), w)
                 ∧ s' = mkState (adapters s) w))
  ∧ (∀ data c e s',
       NewConfigData adapterName data s = (Returned (c, e), s') →
       (adapters s !! adapterName = None
        ∧ c = None ∧ e = unknown_adaptername adapterName ∧ s' = s)
       ∨ (∃ a w, adapters s !! adapterName = Some (Some a)
                 ∧ ParseData a data (world s) = (Returned (c, e), w)
                 ∧ s' = mkState (adapters s) w)).
Proof.
  split; [|split].
  - intros a Hlook. split.
    + intros filename r w Hparse.
      rewrite (NewConfig_known _ _ _ _ Hlook); simpl. unfold run.
      by rewrite Hparse.
    + intros data r w Hparse.
      rewrite (NewConfigData_known _ _ _ _ Hlook); simpl. unfold run.
      by rewrite Hparse.
  - intros filename c e s'.
    destruct (adapters s !! adapterName) as [[a|]|] eqn:Hlook.
    + rewrite (NewConfig_known _ _ _ _ Hlook); simpl. unfold run.
      destruct (Parse a filename (world s)) as [r w] eqn:Hparse.
      intros [= -> <-]. right. by exists a, w.
    + by rewrite (NewConfig_known _ _ _ _ Hlook).
    + rewrite NewConfig_unknown by done. intros [= <- <- <-]. by left.
  - intros data c e s'.
    destruct (adapters s !! adapterName) as [[a|]|] eqn:Hlook.
    + rewrite (NewConfigData_known _ _ _ _ Hlook); simpl. unfold run.
      destruct (ParseData a data (world s)) as [r w] eqn:Hparse.
      intros [= -> <-]. right. by exists a, w.
    + by rewrite (NewConfigData_known _ _ _ _ Hlook).
    + rewrite NewConfigData_unknown by done. intros [= <- <- <-]. by left.
Qed.


(** C6.  Whatever the process does next, calls of [Register], [NewConfig]
    and [NewConfigData] included, every entry of the registry stays as it
    is; so a name resolves to the adapter it was registered with from the
    return of [Register] on. *)
Theorem registration_is_permanent s1 s2 :
  rtc step s1 s2 →
  (∀ name adapter,
     adapters s1 !! name = Some adapter → adapters s2 !! name = Some adapter)
  ∧ (∀ name adapter s0 u,
     Register name adapter s0 = (Returned u, s1) →
     adapters s2 !! name = Some adapter).
Proof.
  intros Hsteps. apply steps_grow in Hsteps.
  assert (Hkeep : ∀ name adapter, adapters s1 !! name = Some adapter →
                                  adapters s2 !! name = Some adapter).
  { intros name adapter Hhere. by eapply lookup_weaken. }
  split; [done|].
  intros name adapter s0 u Hcall. apply Hkeep.
  apply Register_returned in Hcall as (a & -> & _ & ->); simpl.
  apply lookup_insert_eq.
Qed.


(** C9.  [Register] accepts the empty name: when it is not registered yet
    and the adapter is not nil, the call returns, and [NewConfig] with the
    empty name then calls [Parse] of that adapter instead of reporting an
    unknown adapter. *)
Theorem Register_empty_name a s :
  adapters s !! "" = None →
  ∃ s', Register "" (Some a) s = (Returned tt, s')
      ∧ adapters s' !! "" = Some (Some a)
      ∧ (∀ filename r w,
           Parse a filename (world s') = (r, w) →
           NewConfig "" filename s' = (r, mkState (adapters s') w)).
Proof.
  intros Hfresh. eexists. split; [by apply Register_fresh|].
  assert (Hlook : adapters (mkState (<["" := Some a]> (adapters s)) (world s))
                  !! "" = Some (Some a)) by apply lookup_insert_eq.
  split; [done|].
  intros filename r w Hparse.
  rewrite (NewConfig_known _ _ _ _ Hlook). simpl in *. unfold run; simpl.
  by rewrite Hparse.
Qed.

(** C10.  A call of [Register] that panics, which it does for a nil adapter
    and for a registered name, leaves the registry as it found it. *)
Theorem failed_Register_changes_nothing name adapter s :
  (∀ v s', Register name adapter s = (Panicked v, s') →
           s' = s ∧ adapters s' = adapters s)
  ∧ (adapter = None ∨ is_Some (adapters s !! name) →
     ∃ v, Register name adapter s = (Panicked v, s)).
Proof.
  split.
  - intros v s' Hcall. by apply Register_panicked in Hcall as [_ ->].
  - intros [->|Hold].
    + eexists. apply Register_nil.
    + destruct adapter as [a|].
      * eexists. by apply Register_twice.
      * eexists. apply Register_nil.
Qed.

End Claims.

(** * The properties on a run *)

Import Fixture.

Lemma Register_ini :
  Register "ini" (Some recorder) (init []) = (Returned tt, with_ini).
Proof. reflexivity. Defined.

Lemma with_ini_reachable : reachable with_ini.
Proof.
  exists []. eapply rtc_l; [|apply rtc_refl].
  eapply step_Register. apply Register_ini.
Defined.

(** After [NewConfig("ini", "app.conf")] in [with_ini]. *)
Lemma with_ini_parsed :
  rtc step with_ini (mkState (adapters with_ini) ["Parse app.conf"]).
Proof.
  eapply rtc_l; [|apply rtc_refl].
  by eapply (step_NewConfig "ini" "app.conf").
Defined.

Lemma Register_then_lookup_witness :
  adapters (init (any:=unit) ([] : trace)) !! "ini" = None
  ∧ ∃ s', Register "ini" (Some recorder) (init []) = (Returned tt, s')
        ∧ index "ini" s' = (Returned (Some recorder, true), s')
        ∧ (∀ filename,
             NewConfig "ini" filename s' = run (Parse recorder filename) s')
        ∧ (∀ data,
             NewConfigData "ini" data s' = run (ParseData recorder data) s').
Proof.
  split; [reflexivity|]. apply Register_then_lookup. reflexivity.
Defined.

Lemma unknown_adapter_error_witness :
  adapters with_ini !! "toml" = None
  ∧ ∃ message,
      message = "config: unknown adaptername " +:+ Quote "toml"
                +:+ " (forgotten import?)"
      ∧ mentions message (Quote "toml")
      ∧ (∀ filename,
           NewConfig "toml" filename with_ini
           = (Returned (None, Some message), with_ini))
      ∧ (∀ data,
           NewConfigData "toml" data with_ini
           = (Returned (None, Some message), with_ini)).
Proof.
  split; [reflexivity|]. apply unknown_adapter_error. reflexivity.
Defined.

Lemma dispatch_returns_the_adapters_result_witness :
  adapters with_ini !! "ini" = Some (Some recorder)
  ∧ NewConfig "ini" "app.conf" with_ini
    = (Returned (Some blank, None),
       mkState (adapters with_ini) ["Parse app.conf"]).
Proof.
  split; [reflexivity|].
  destruct (dispatch_returns_the_adapters_result "ini" with_ini)
    as (Hknown & _ & _).
  destruct (Hknown recorder eq_refl) as [Hfile _].
  apply Hfile. reflexivity.
Defined.

Lemma registration_is_permanent_witness :
  Register "ini" (Some recorder) (init []) = (Returned tt, with_ini)
  ∧ rtc step with_ini (mkState (adapters with_ini) ["Parse app.conf"])
  ∧ adapters (mkState (adapters with_ini) ["Parse app.conf"]) !! "ini"
    = Some (Some recorder).
Proof.
  split; [reflexivity|]. split; [apply with_ini_parsed|].
  eapply (registration_is_permanent _ _ with_ini_parsed).
  apply Register_ini.
Defined.


Lemma Register_empty_name_witness :
  adapters with_ini !! "" = None
  ∧ ∃ s', Register "" (Some broken) with_ini = (Returned tt, s')
        ∧ adapters s' !! "" = Some (Some broken)
        ∧ (∀ filename r w,
             Parse broken filename (world s') = (r, w) →
             NewConfig "" filename s' = (r, mkState (adapters s') w)).
Proof.
  split; [reflexivity|]. apply Register_empty_name. reflexivity.
Defined.

Lemma failed_Register_changes_nothing_witness :
  is_Some (adapters with_ini !! "ini")
  ∧ ∃ v, Register "ini" (Some broken) with_ini = (Panicked v, with_ini).
Proof.
  split; [by eexists|].
  apply (failed_Register_changes_nothing "ini" (Some broken) with_ini).
  right. by eexists.
Defined.

Lemma Register_panics_iff_witness :
  (∃ v s', Register "ini" (Some broken) with_ini = (Panicked v, s'))
  ∧ ¬ (∃ v s', Register "json" (Some broken) with_ini = (Panicked v, s')).
Proof.
  destruct (Register_panics_iff "ini" (Some broken) with_ini) as [[_ Hpanics] _].
  destruct (Register_panics_iff "json" (Some broken) with_ini) as [[Hwhy _] _].
  split.
  - apply Hpanics. right. by eexists.
  - intros Hcall. destruct (Hwhy Hcall) as [Hnil|[old Hold]]; discriminate.
Defined.


(** * More on the registry

    What the three functions do beside what is stated above: what a call of
    [Register] leaves alone, how calls commute, where the entries of the
    registry come from. *)

Section Registry.

Context {W : Type} {any : Type} `{strconv}.

Implicit Types (s : State W any) (a : Config W any) (adapter : option (Config W any)).
Implicit Types (name adapterName filename v : string) (data : list Byte.byte).



(** X1.  A call of [Register] that returns has added the one entry and done
    nothing else: the world is as before, every other name resolves as
    before, and the registry has one name more. *)
Theorem Register_adds_one_entry name adapter s u s' :
  Register name adapter s = (Returned u, s') →
  world s' = world s
  ∧ (∀ other, other ≠ name → adapters s' !! other = adapters s !! other)
  ∧ dom (adapters s') = {[name]} ∪ dom (adapters s)
  ∧ size (adapters s') = S (size (adapters s)).
Proof.
  intros Hcall. apply Register_returned in Hcall as (a & -> & Hnone & ->).
  simpl. split; [done|]. split; [|split].
  - intros other Hne. by rewrite lookup_insert_ne.
  - apply dom_insert_L.
  - by apply map_size_insert_None.
Qed.

(** X2.  The order of two registrations does not matter: when [Register] of
    one name and then of another both return, so do they in the other
    order, and the process ends in the same state. *)
Theorem Register_commutes name1 name2 adapter1 adapter2 s s1 s12 u1 u2 :
  Register name1 adapter1 s = (Returned u1, s1) →
  Register name2 adapter2 s1 = (Returned u2, s12) →
  name1 ≠ name2
  ∧ ∃ s2, Register name2 adapter2 s = (Returned u2, s2)
        ∧ Register name1 adapter1 s2 = (Returned u1, s12).
Proof.
  intros Hfirst Hsecond.
  apply Register_returned in Hfirst as (a1 & -> & Hnone1 & ->).
  apply Register_returned in Hsecond as (a2 & -> & Hnone2 & ->).
  simpl in *. destruct u1, u2.
  assert (Hne : name1 ≠ name2).
  { intros ->. by rewrite lookup_insert_eq in Hnone2. }
  rewrite lookup_insert_ne in Hnone2 by done.
  split; [done|]. eexists. split; [by apply Register_fresh|].
  rewrite Register_fresh; simpl.
  - by rewrite (insert_insert_ne _ name1 name2).
  - by rewrite lookup_insert_ne.
Qed.


(** X4.  A name is registered at most once in the life of the process: from
    the return of [Register] on, every further [Register] of that name
    panics, with the nil message for a nil adapter and with the message
    that ends in the name otherwise, and leaves the state as it is. *)
Theorem Register_at_most_once name adapter s0 u s1 s2 :
  Register name adapter s0 = (Returned u, s1) →
  rtc step s1 s2 →
  ∀ again,
    Register name again s2
    = (Panicked (if is_nil again then "config: Register adapter is nil"
                 else "config: Register called twice for adapter " +:+ name),
       s2).
Proof.
  intros Hcall Hsteps again.
  apply Register_returned in Hcall as (a & -> & _ & ->).
  apply steps_grow in Hsteps.
  assert (Hthere : adapters s2 !! name = Some (Some a)).
  { eapply lookup_weaken; [|done]. apply lookup_insert_eq. }
  destruct again as [b|]; simpl.
  - apply Register_twice. by eexists.
  - apply Register_nil.
Qed.


(** X6.  In a state the process can reach, the two results of the map
    lookup agree: the adapter is nil exactly when the name is absent. *)
Theorem lookup_nil_iff_absent name s adapter ok s' :
  reachable s →
  index name s = (Returned (adapter, ok), s') →
  s' = s
  ∧ (ok = false ↔ adapter = None)
  ∧ (ok = false ↔ adapters s !! name = None).
Proof.
  intros Hreach. apply reachable_no_nil in Hreach. unfold index.
  destruct (adapters s !! name) as [found|] eqn:Hlook; intros [= <- <- <-].
  - specialize (Hreach _ _ Hlook). split; [done|]. by split; split.
  - split; [done|]. by split; split.
Qed.

End Registry.

(** * The error for an unknown adapter *)

Lemma list_ascii_of_string_app (s1 s2 : string) :
  list_ascii_of_string (s1 +:+ s2)
  = (list_ascii_of_string s1 ++ list_ascii_of_string s2)%list.
Proof. induction s1 as [|c s1 IH]; simpl; [done|]. by rewrite IH. Qed.

Lemma append_inv_tail (s1 s2 tail : string) :
  s1 +:+ tail = s2 +:+ tail → s1 = s2.
Proof.
  intros Heq. apply (f_equal list_ascii_of_string) in Heq.
  rewrite !list_ascii_of_string_app in Heq. apply app_inv_tail in Heq.
  rewrite <- (string_of_list_ascii_of_string s1),
          <- (string_of_list_ascii_of_string s2).
  by rewrite Heq.
Qed.

Section UnknownAdapter.

Context {W : Type} {any : Type} `{strconv}.

Implicit Types (s : State W any).

(** X7.  The error for an unknown adapter tells the names apart, as far as
    [strconv.Quote] does: two calls, of [NewConfig] or of [NewConfigData],
    with names that are not registered return the same error only for the
    same name. *)
Theorem unknown_adapter_error_identifies_name name1 name2 s1 s2 :
  (∀ x y, Quote x = Quote y → x = y) →
  adapters s1 !! name1 = None →
  adapters s2 !! name2 = None →
  (∀ filename1 filename2,
     (NewConfig name1 filename1 s1).1 = (NewConfig name2 filename2 s2).1 →
     name1 = name2)
  ∧ (∀ data1 data2,
     (NewConfigData name1 data1 s1).1 = (NewConfigData name2 data2 s2).1 →
     name1 = name2)
  ∧ (∀ filename1 data2,
     (NewConfig name1 filename1 s1).1 = (NewConfigData name2 data2 s2).1 →
     name1 = name2).
Proof.
  intros Hinj Hnone1 Hnone2.
  assert (Hmsg : unknown_adaptername name1 = unknown_adaptername name2 →
                 name1 = name2).
  { unfold unknown_adaptername. intros [= Heq].
    apply (inj (String.app _)) in Heq. apply append_inv_tail in Heq.
    by apply Hinj. }
  split; [|split].
  - intros filename1 filename2.
    rewrite !NewConfig_unknown by done. cbn [fst].
    intros Heq. apply Hmsg. congruence.
  - intros data1 data2.
    rewrite !NewConfigData_unknown by done. cbn [fst].
    intros Heq. apply Hmsg. congruence.
  - intros filename1 data2.
    rewrite NewConfig_unknown, NewConfigData_unknown by done. cbn [fst].
    intros Heq. apply Hmsg. congruence.
Qed.

End UnknownAdapter.

(** * More on the run *)

Local Abbreviation start := (init (any:=unit) ([] : trace)).

Lemma Register_adds_one_entry_witness :
  Register "ini" (Some recorder) start = (Returned tt, with_ini)
  ∧ world with_ini = world start
  ∧ (∀ other, other ≠ "ini" →
       adapters with_ini !! other = adapters start !! other)
  ∧ dom (adapters with_ini) = {[ "ini" ]} ∪ dom (adapters start)
  ∧ size (adapters with_ini) = S (size (adapters start)).
Proof.
  split; [reflexivity|]. exact (Register_adds_one_entry _ _ _ _ _ Register_ini).
Defined.

Lemma Register_json :
  Register "json" (Some broken) with_ini
  = (Returned tt, mkState (<["json" := Some broken]> (adapters with_ini)) []).
Proof. reflexivity. Defined.

Lemma Register_commutes_witness :
  Register "ini" (Some recorder) start = (Returned tt, with_ini)
  ∧ Register "json" (Some broken) with_ini
    = (Returned tt, mkState (<["json" := Some broken]> (adapters with_ini)) [])
  ∧ "ini" ≠ "json"
  ∧ ∃ s2, Register "json" (Some broken) start = (Returned tt, s2)
        ∧ Register "ini" (Some recorder) s2
          = (Returned tt,
             mkState (<["json" := Some broken]> (adapters with_ini)) []).
Proof.
  split; [reflexivity|]. split; [reflexivity|].
  exact (Register_commutes _ _ _ _ _ _ _ _ _ Register_ini Register_json).
Defined.


Lemma Register_at_most_once_witness :
  Register "ini" (Some recorder) start = (Returned tt, with_ini)
  ∧ rtc step with_ini (mkState (adapters with_ini) ["Parse app.conf"])
  ∧ Register "ini" (Some broken)
      (mkState (adapters with_ini) ["Parse app.conf"])
    = (Panicked "config: Register called twice for adapter ini",
       mkState (adapters with_ini) ["Parse app.conf"]).
Proof.
  split; [reflexivity|]. split; [apply with_ini_parsed|].
  exact (Register_at_most_once _ _ _ _ _ _ Register_ini with_ini_parsed
           (Some broken)).
Defined.


Lemma lookup_nil_iff_absent_witness :
  reachable with_ini
  ∧ index "toml" with_ini = (Returned (None, false), with_ini)
  ∧ (false = false ↔ adapters with_ini !! "toml" = None).
Proof.
  split; [apply with_ini_reachable|]. split; [reflexivity|].
  destruct (lookup_nil_iff_absent "toml" with_ini None false with_ini
              with_ini_reachable eq_refl) as (_ & _ & Habsent).
  exact Habsent.
Defined.

Lemma quote_plain_inj (x y : string) : Quote x = Quote y → x = y.
Proof.
  unfold Quote, quote_plain. intros Heq.
  apply (inj (String.app _)) in Heq. by apply append_inv_tail in Heq.
Defined.

Lemma unknown_adapter_error_identifies_name_witness :
  (∀ x y : string, Quote x = Quote y → x = y)
  ∧ adapters with_ini !! "toml" = None
  ∧ adapters start !! "yaml" = None
  ∧ (NewConfig "toml" "a.toml" with_ini).1
    ≠ (NewConfigData "yaml" [] start).1.
Proof.
  split; [exact quote_plain_inj|]. split; [reflexivity|]. split; [reflexivity|].
  destruct (unknown_adapter_error_identifies_name "toml" "yaml" with_ini
              start quote_plain_inj eq_refl eq_refl) as (_ & _ & Hmixed).
  intros Heq. by specialize (Hmixed _ _ Heq).
Defined.
